(** * The timing harness of the local-RDD benchmark notebook

    A shallow embedding of the code cells of [local-rdd.ipynb]: the class
    [Benchmark] with its method [run], the module-level catalog [funcs],
    the two batch cells that time every catalog entry, and the collection
    engine the catalog entries call.

    Conventions.
    - A Python exception is a record of its class name and its arguments.
    - Code that can raise runs in a state-and-exception monad; the state
      reached when an exception is raised is kept, as in Python.
    - Times are exact rationals, in seconds as [timeit] reports them; the
      rounding of binary64 clock readings and arithmetic is not modelled.
    - Module [B64] is the same harness with the numbers the code computes
      with, binary64 floats; what is stated there holds of the values the
      code returns, rounding included. *)

From Stdlib Require Import QArith Qminmax Lqa.
From Stdlib Require PrimFloat.
From stdpp Require Import gmap strings list fin_maps.

Local Open Scope string_scope.

(** ** Python exceptions and outcomes *)

Record Exn := mkExn { exn_class : string; exn_args : list string }.

Definition KeyError (key : string) : Exn := mkExn "KeyError" [key].
Definition ValueError (msg : string) : Exn := mkExn "ValueError" [msg].

Inductive Outcome (A : Type) : Type :=
| Return (a : A)
| Raise (e : Exn).
Arguments Return {A} a.
Arguments Raise {A} e.

Definition returns {A} (o : Outcome A) : Prop :=
  match o with Return _ => True | Raise _ => False end.

(** The builtin [min] on a list: the first element that no later element
    is strictly below; [ValueError] on the empty list. *)
Definition Qltb (x y : Q) : bool := negb (Qle_bool y x).

Fixpoint min_from (best : Q) (l : list Q) : Q :=
  match l with
  | [] => best
  | x :: l' => min_from (if Qltb x best then x else best) l'
  end.

Definition py_min (l : list Q) : Outcome Q :=
  match l with
  | [] => Raise (ValueError "min() arg is an empty sequence")
  | x :: l' => Return (min_from x l')
  end.

(** ** The harness *)

Section Harness.
(** [Rdd] is the state of the collection object a [Benchmark] holds,
    [Store] the rest of the interpreter state a catalog entry can reach,
    [Val] what a catalog entry returns. *)
Context {Rdd Store Val : Type}.

(** Seconds spent, in each evaluation of the timed statement, outside the
    body of the catalog entry: loading [funcs], the subscript [funcs[name]],
    loading [self.rdd] and the call itself. *)
Variable overhead : Q.

(** What one call of a catalog entry does: it returns or raises, leaves
    the collection object and the store in some state, takes some time,
    and may rebind ([Some]) or delete ([None]) entries of [funcs]. *)
Record Effect (C : Type) : Type := mkEffect {
  outcome : Outcome Val;
  rdd_after : Rdd;
  store_after : Store;
  elapsed : Q;
  rebinds : list (string * option C)
}.
Arguments mkEffect {C}.
Arguments outcome {C}.
Arguments rdd_after {C}.
Arguments store_after {C}.
Arguments elapsed {C}.
Arguments rebinds {C}.

#[warnings="-register-all"]
Inductive Closure : Type :=
| Lam (body : Rdd -> Store -> Effect Closure).

Definition call (f : Closure) : Rdd -> Store -> Effect Closure :=
  match f with Lam body => body end.

(** [class Benchmark]: [__init__] stores the collection and nothing else. *)
Record Benchmark : Type := mkBenchmark { rdd : Rdd }.

Definition Benchmark_init (r : Rdd) : Benchmark := mkBenchmark r.

(** The module-level state [run] can reach: the catalog [funcs], the
    wall clock and the store. *)
Record World : Type := mkWorld {
  funcs : gmap string Closure;
  now : Q;
  store : Store
}.

Definition M (A : Type) : Type :=
  Benchmark * World -> Outcome A * (Benchmark * World).

Definition ret {A} (a : A) : M A := fun s => (Return a, s).

Definition bind {A B} (m : M A) (k : A -> M B) : M B :=
  fun s =>
    match m s with
    | (Return a, s') => k a s'
    | (Raise e, s') => (Raise e, s')
    end.

Notation "x <- m ;; k" := (bind m (fun x => k))
  (at level 100, m at next level, right associativity).

Definition lift {A} (o : Outcome A) : M A := fun s => (o, s).

(** [for x in l: ...] collecting the results, as a list comprehension. *)
Fixpoint for_each {A B} (f : A -> M B) (l : list A) : M (list B) :=
  match l with
  | [] => ret []
  | x :: l' => y <- f x ;; ys <- for_each f l' ;; ret (y :: ys)
  end.

(** [for _i in itertools.repeat(None, number): stmt()] *)
Fixpoint repeat_stmt {A} (stmt : M A) (number : nat) : M unit :=
  match number with
  | O => ret tt
  | S n => _ <- stmt ;; repeat_stmt stmt n
  end.

(** [funcs[k] = c] and [del funcs[k]], in the order they were done. *)
Definition apply_rebinds (ups : list (string * option Closure))
    (cat : gmap string Closure) : gmap string Closure :=
  fold_left (fun m up =>
               match up with
               | (k, Some c) => <[k := c]> m
               | (k, None) => delete k m
               end) ups cat.

(** The timed statement [lambda: funcs[name](self.rdd)]: the subscript is
    evaluated first and raises [KeyError] when [name] is not bound; then
    the entry found is called on the stored collection. *)
Definition stmt (name : string) : M Val :=
  fun '(self, w) =>
    match funcs w !! name with
    | None =>
        (Raise (KeyError name),
         (self, mkWorld (funcs w) (now w + overhead) (store w)))
    | Some f =>
        let r := call f (rdd self) (store w) in
        (outcome r,
         (mkBenchmark (rdd_after r),
          mkWorld (apply_rebinds (rebinds r) (funcs w))
                  (now w + overhead + elapsed r)
                  (store_after r)))
    end.

(** [timeit.default_timer()] *)
Definition timer : M Q := fun '(self, w) => (Return (now w), (self, w)).

(** [Timer.timeit(number)]: read the clock, run the statement [number]
    times, read the clock, return the difference in seconds. *)
Definition timeit {A} (stmt : M A) (number : nat) : M Q :=
  t0 <- timer ;;
  _ <- repeat_stmt stmt number ;;
  t1 <- timer ;;
  ret (t1 - t0)%Q.

(** [[t.timeit(3)/3.0 * 1000 for _ in range(3)]] *)
Definition trials (name : string) : M (list Q) :=
  for_each (fun _ : nat =>
              total <- timeit (stmt name) 3 ;;
              ret (total / 3 * 1000)%Q)
           (seq 0 3).

(** [Benchmark.run]: the [Timer] made on its first line wraps the timed
    statement; the second line takes the minimum over the three trials. *)
Definition run (name : string) : M Q :=
  ms <- trials name ;;
  lift (py_min ms).

End Harness.

(** ** The collection engine

    [thunder.rdds.local.LocalRDD] is imported by the notebook and is not
    part of its source; the engine below follows the engine's written
    contract. *)

Module Engine.

(** Modelled from the spec: the errors of the engine, "LengthMismatchError
    - Collection construction with mismatched key/value sequence lengths",
    "EmptyCollectionError - reduce invoked on zero records" and
    "OperationFailure - any error raised inside a caller-supplied function,
    wrapped with the originating operation's name". *)
Inductive EngineError : Type :=
| LengthMismatchError
| EmptyCollectionError
| OperationFailure (op : string) (cause : Exn).

Inductive Result (A : Type) : Type :=
| Ok (a : A)
| Err (e : EngineError).
Arguments Ok {A} a.
Arguments Err {A} e.

(** Modelled from the spec: the Collection of [LocalRDD], "an ordered
    sequence of Records, held fully in memory", a Record being "an
    immutable pair (key, value)". *)
Definition Collection (K V : Type) : Type := list (K * V).

Section Ops.
Context {K : Type} `{Countable K}.

(** Modelled from the spec: the constructor of [LocalRDD],
    "Collection::from(values, keys) requires len(values) == len(keys);
    fails with LengthMismatchError otherwise. Order of the input
    sequences defines the Collection's initial order." *)
Definition Collection_from {V} (values : list V) (keys : list K)
    : Result (Collection K V) :=
  if decide (length values = length keys)
  then Ok (zip keys values)
  else Err LengthMismatchError.

(** Modelled from the spec: [LocalRDD.mapValues], "applies f
    independently to each value; errors from f propagate per-record
    (fail-fast: first error aborts the whole operation)", wrapped as
    [OperationFailure] with the operation's name. *)
Fixpoint map_values {V V2} (f : V -> Outcome V2) (c : Collection K V)
    : Result (Collection K V2) :=
  match c with
  | [] => Ok []
  | (k, v) :: c' =>
      match f v with
      | Raise e => Err (OperationFailure "map_values" e)
      | Return v2 =>
          match map_values f c' with
          | Ok r => Ok ((k, v2) :: r)
          | Err e => Err e
          end
      end
  end.

(** Modelled from the spec: [LocalRDD.filter], "new Collection
    containing exactly the records for which p is true, relative order
    among retained records preserved"; an error raised inside the
    predicate is an [OperationFailure]. *)
Fixpoint filter {V} (p : K * V -> Outcome bool) (c : Collection K V)
    : Result (Collection K V) :=
  match c with
  | [] => Ok []
  | kv :: c' =>
      match p kv with
      | Raise e => Err (OperationFailure "filter" e)
      | Return b =>
          match filter p c' with
          | Ok r => Ok (if b then kv :: r else r)
          | Err e => Err e
          end
      end
  end.

(** Folding a combiner over values, first to last. *)
Fixpoint combine_from {V} (op : string) (f : V -> V -> Outcome V)
    (acc : V) (vs : list V) : Result V :=
  match vs with
  | [] => Ok acc
  | v :: vs' =>
      match f acc v with
      | Raise e => Err (OperationFailure op e)
      | Return acc' => combine_from op f acc' vs'
      end
  end.

(** Modelled from the spec: [LocalRDD.reduce], "single combined V
    across all values, key ignored; fails with EmptyCollectionError if
    the collection has zero records; any combination order is valid". *)
Definition reduce {V} (f : V -> V -> Outcome V) (c : Collection K V)
    : Result V :=
  match c with
  | [] => Err EmptyCollectionError
  | (_, v) :: c' => combine_from "reduce" f v (c'.*2)
  end.

(** Modelled from the spec: [LocalRDD.groupByKey], a "mapping from each
    distinct key K to the ordered sequence of values associated with
    that key in the original collection"; "every value appears in
    exactly one group, keyed by its original key". *)
Definition group_by_key {V} (c : Collection K V) : gmap K (list V) :=
  fold_left (fun m kv => <[kv.1 := (default [] (m !! kv.1) ++ [kv.2])%list]> m)
            c ∅.

(** One step of the incremental per-key combination. *)
Definition combine_into {V} (f : V -> V -> Outcome V) (m : gmap K V)
    (kv : K * V) : Result (gmap K V) :=
  match m !! kv.1 with
  | None => Ok (<[kv.1 := kv.2]> m)
  | Some acc =>
      match f acc kv.2 with
      | Raise e => Err (OperationFailure "reduce_by_key" e)
      | Return acc' => Ok (<[kv.1 := acc']> m)
      end
  end.

Fixpoint combine_all {V} (f : V -> V -> Outcome V) (m : gmap K V)
    (c : Collection K V) : Result (gmap K V) :=
  match c with
  | [] => Ok m
  | kv :: c' =>
      match combine_into f m kv with
      | Ok m' => combine_all f m' c'
      | Err e => Err e
      end
  end.

(** Modelled from the spec: [LocalRDD.reduceByKey], "new Collection of
    (K, V), one record per distinct key, value = fold of f over that
    key's values", by "a hash-based grouping"; "iteration order over
    distinct keys in the result is unspecified". *)
Definition reduce_by_key {V} (f : V -> V -> Outcome V) (c : Collection K V)
    : Result (Collection K V) :=
  match combine_all f ∅ c with
  | Ok m => Ok (map_to_list m)
  | Err e => Err e
  end.

(** Modelled from the spec: [LocalRDD.count], "integer count of
    records". *)
Definition count {V} (c : Collection K V) : nat := length c.

(** Modelled from the spec: [LocalRDD.collect] after [values()], "the
    full ordered sequence of values (keys discarded)". *)
Definition collect {V} (c : Collection K V) : list V := c.*2.

End Ops.


(** The exception a caller of the engine sees. *)
Definition to_exn (e : EngineError) : Exn :=
  match e with
  | LengthMismatchError => mkExn "LengthMismatchError" []
  | EmptyCollectionError => mkExn "EmptyCollectionError" []
  | OperationFailure op cause =>
      mkExn "OperationFailure" (op :: exn_class cause :: exn_args cause)
  end.

Definition to_outcome {A} (r : Result A) : Outcome A :=
  match r with
  | Ok a => Return a
  | Err e => Raise (to_exn e)
  end.

End Engine.

(** ** The worked example of the engine's contract *)

Module Scenario.

Definition values : list Z := [10; 20; 30; 40]%Z.
Definition keys : list Z := [1; 1; 2; 2]%Z.

Definition records : Engine.Collection Z Z :=
  [(1, 10); (1, 20); (2, 30); (2, 40)]%Z.

Definition add (x y : Z) : Outcome Z := Return (x + y)%Z.

(** [k > 1] *)
Definition key_above_one (kv : Z * Z) : Outcome bool := Return (1 <? kv.1)%Z.

End Scenario.

(** ** The catalog of the notebook *)

Section Catalog.
Context {K : Type} `{Countable K} {V V2 Store : Type}.

(** numpy's [add], [maximum] and [ndarray.sum], and the comparison
    [k > 50] on keys. *)
Variables (add maximum : V -> V -> V) (vsum : V -> V2) (gt50 : K -> bool).

(** Seconds an entry takes on a collection. *)
Variable cost : string -> Engine.Collection K V -> Q.

Inductive PyVal : Type :=
| VArray (v : V)
| VInt (n : nat)
| VList (l : list V).

Definition pure2 (f : V -> V -> V) (x y : V) : Outcome V := Return (f x y).

(** Modelled from the spec: what calling an operation of [LocalRDD] does
    to its receiver, "every operation returns a new Collection (or scalar),
    leaving the receiver untouched". An entry built from engine operations
    returns what they return or raises what they report, takes [cost]
    seconds, and leaves the collection, the store and the catalog as they
    were. *)
Definition entry (name : string)
    (f : Engine.Collection K V -> Engine.Result PyVal)
    : Closure (Rdd := Engine.Collection K V) (Store := Store) (Val := PyVal) :=
  Lam (fun rdd s =>
         mkEffect _ (Engine.to_outcome (f rdd)) rdd s (cost name rdd) []).

(** [lambda rdd: rdd.values().reduce(add)] *)
Definition funcs_sum (rdd : Engine.Collection K V) : Engine.Result PyVal :=
  match Engine.reduce (pure2 add) rdd with
  | Engine.Ok v => Engine.Ok (VArray v)
  | Engine.Err e => Engine.Err e
  end.

(** [lambda rdd: rdd.values().reduce(maximum)] *)
Definition funcs_max (rdd : Engine.Collection K V) : Engine.Result PyVal :=
  match Engine.reduce (pure2 maximum) rdd with
  | Engine.Ok v => Engine.Ok (VArray v)
  | Engine.Err e => Engine.Err e
  end.

(** [lambda rdd: rdd.filter(lambda (k, v): k > 50).count()] *)
Definition funcs_filter (rdd : Engine.Collection K V) : Engine.Result PyVal :=
  match Engine.filter (fun kv => Return (gt50 kv.1)) rdd with
  | Engine.Ok r => Engine.Ok (VInt (Engine.count r))
  | Engine.Err e => Engine.Err e
  end.

(** [lambda rdd: rdd.mapValues(lambda x: x.sum()).count()] *)
Definition funcs_map (rdd : Engine.Collection K V) : Engine.Result PyVal :=
  match Engine.map_values (fun x => Return (vsum x)) rdd with
  | Engine.Ok r => Engine.Ok (VInt (Engine.count r))
  | Engine.Err e => Engine.Err e
  end.

(** [lambda rdd: rdd.values().collect()] *)
Definition funcs_collect (rdd : Engine.Collection K V) : Engine.Result PyVal :=
  Engine.Ok (VList (Engine.collect rdd)).

(** [lambda rdd: rdd.reduceByKey(add).count()] *)
Definition funcs_reduceByKey (rdd : Engine.Collection K V)
    : Engine.Result PyVal :=
  match Engine.reduce_by_key (pure2 add) rdd with
  | Engine.Ok r => Engine.Ok (VInt (Engine.count r))
  | Engine.Err e => Engine.Err e
  end.

(** [lambda rdd: rdd.groupByKey().count()] *)
Definition funcs_groupByKey (rdd : Engine.Collection K V)
    : Engine.Result PyVal :=
  Engine.Ok (VInt (size (Engine.group_by_key rdd))).

(** [funcs = {}] followed by the seven assignments, in their order. *)
Definition notebook_funcs : gmap string Closure :=
  <["groupByKey" := entry "groupByKey" funcs_groupByKey]>
  (<["reduceByKey" := entry "reduceByKey" funcs_reduceByKey]>
  (<["collect" := entry "collect" funcs_collect]>
  (<["map" := entry "map" funcs_map]>
  (<["filter" := entry "filter" funcs_filter]>
  (<["max" := entry "max" funcs_max]>
  (<["sum" := entry "sum" funcs_sum]> ∅)))))).

End Catalog.

(** ** The batch cells *)

Section Notebook.
Context {Rdd Store Val : Type}.
Variable overhead : Q.

(** [funcs.keys()]: a list of the names bound, in the dictionary's order. *)
Definition keys (cat : gmap string (Closure (Rdd := Rdd) (Store := Store) (Val := Val)))
    : list string :=
  (map_to_list cat).*1.

(** [[t.run(k) for k in funcs.keys()]] *)
Definition run_all : M (list Q) :=
  fun s => for_each (run overhead) (keys (funcs s.2)) s.

(** The names of the notebook that the batch cells read or assign. The
    loop variable [k], which a Python 2 comprehension leaves bound at
    module level, is not tracked. *)
Record Notebook : Type := mkNotebook {
  t : Benchmark (Rdd := Rdd);
  globals : World (Rdd := Rdd) (Store := Store) (Val := Val);
  distributed : option (list Q);
  local : option (list Q)
}.

(** [distributed = [t.run(k) for k in funcs.keys()]]: the name is
    assigned once the comprehension has produced its list. *)
Definition cell_distributed (nb : Notebook) : option Exn * Notebook :=
  match run_all (t nb, globals nb) with
  | (Return ts, (b, w)) => (None, mkNotebook b w (Some ts) (local nb))
  | (Raise e, (b, w)) => (Some e, mkNotebook b w (distributed nb) (local nb))
  end.

(** [local = [t.run(k) for k in funcs.keys()]] *)
Definition cell_local (nb : Notebook) : option Exn * Notebook :=
  match run_all (t nb, globals nb) with
  | (Return ts, (b, w)) => (None, mkNotebook b w (distributed nb) (Some ts))
  | (Raise e, (b, w)) => (Some e, mkNotebook b w (distributed nb) (local nb))
  end.

(** What a batch cell leaves: when it completes, [target] holds one timing
    per catalog name; when the comprehension raises [e], the operations in
    [pre] had been timed (their timings are [ts]), the next one raised [e],
    and [target] is as it was. The other batch's name is untouched. *)
Definition batch_result (cell : Notebook -> option Exn * Notebook)
    (target other : Notebook -> option (list Q)) (nb : Notebook) : Prop :=
  match cell nb with
  | (None, nb') =>
      (exists ts, target nb' = Some ts /\
                  length ts = length (keys (funcs (globals nb)))) /\
      other nb' = other nb
  | (Some e, nb') =>
      (exists pre name post ts s1,
         keys (funcs (globals nb)) = (pre ++ name :: post)%list /\
         for_each (run overhead) pre (t nb, globals nb) = (Return ts, s1) /\
         run overhead name s1 = (Raise e, (t nb', globals nb'))) /\
      target nb' = target nb /\
      other nb' = other nb
  end.

End Notebook.

(** ** Vocabulary for statements about a run *)

Section Observations.
Context {Rdd Store Val : Type}.
Variable overhead : Q.

Local Abbreviation Closure := (Closure (Rdd := Rdd) (Store := Store) (Val := Val)).
Local Abbreviation State := (Benchmark (Rdd := Rdd)
                   * World (Rdd := Rdd) (Store := Store) (Val := Val))%type.

(** An entry that never raises and never touches the catalog. *)
Definition quiet (f : Closure) : Prop :=
  forall r s, returns (outcome _ (call f r s)) /\ rebinds _ (call f r s) = [].

(** An entry that leaves the collection object and the catalog as they
    were; it may raise. *)
Definition readonly (f : Closure) : Prop :=
  forall r s, rdd_after _ (call f r s) = r /\ rebinds _ (call f r s) = [].

Definition catalog_readonly (cat : gmap string Closure) : Prop :=
  forall name f, cat !! name = Some f -> readonly f.

(** The state one call of [f] on the stored collection leaves, the
    catalog apart. *)
Definition after (f : Closure) (s : State) : State :=
  let r := call f (rdd s.1) (store s.2) in
  (mkBenchmark (rdd_after _ r),
   mkWorld (funcs s.2) (now s.2 + overhead + elapsed _ r)%Q (store_after _ r)).

Fixpoint after_n (f : Closure) (n : nat) (s : State) : State :=
  match n with
  | O => s
  | S n' => after_n f n' (after f s)
  end.

(** Seconds the body of [f] takes when called in state [s]. *)
Definition elapsed_at (f : Closure) (s : State) : Q :=
  elapsed _ (call f (rdd s.1) (store s.2)).

(** Seconds each of [n] consecutive evaluations of the timed statement
    takes, from state [s] on. *)
Fixpoint durations (f : Closure) (n : nat) (s : State) : list Q :=
  match n with
  | O => []
  | S n' => (overhead + elapsed_at f s)%Q :: durations f n' (after f s)
  end.

Definition Qsum (l : list Q) : Q := fold_right Qplus 0%Q l.

(** The mean, in milliseconds, of three consecutive evaluations. *)
Definition trial_ms (f : Closure) (s : State) : Q :=
  (Qsum (durations f 3 s) / 3 * 1000)%Q.

(** [r] is, as a number, one of [l] and below all of [l]. *)
Definition is_minimum (r : Q) (l : list Q) : Prop :=
  Exists (Qeq r) l /\ Forall (Qle r) l.

(** [funcs[name] = f] at module level. *)
Definition rebind (name : string) (f : Closure) (w : World) : World :=
  mkWorld (<[name := f]> (funcs w)) (now w) (store w).

(** An operation that returns [v] after [c] seconds and does nothing
    else. *)
Definition constant_cost (c : Q) (v : Val) : Closure :=
  Lam (fun r s => mkEffect _ (Return v) r s c []).

(** An operation that raises [e] after [c] seconds. *)
Definition failing (c : Q) (e : Exn) : Closure :=
  Lam (fun r s => mkEffect _ (Raise e) r s c []).


End Observations.

(** ** Small worlds to run the harness in *)

Module Demo.

Local Abbreviation Closure := (Closure (Rdd := unit) (Store := unit) (Val := unit)).

(** An operation taking half a second. *)
Definition half_second : Closure := constant_cost (1 # 2) tt.

(** An operation raising [ZeroDivisionError()] after half a second. *)
Definition boom : Exn := mkExn "ZeroDivisionError" [].
Definition broken : Closure := failing (1 # 2) boom.

Definition bench : Benchmark := Benchmark_init tt.

(** [funcs = {'sum': half_second}] *)
Definition one_entry : World := mkWorld {["sum" := half_second]} 0 tt.

(** [funcs = {'sum': broken}] *)
Definition one_broken_entry : World := mkWorld {["sum" := broken]} 0 tt.

(** [funcs = {'a': half_second, 'b': broken}], whose [keys()] are
    ['a', 'b']; neither batch cell has run yet. *)
Definition two_entries : World :=
  mkWorld (<["b" := broken]> {["a" := half_second]}) 0 tt.

Definition fresh_notebook : Notebook :=
  mkNotebook bench two_entries None None.

(** The same after [distributed] was assigned by a completed batch. *)
Definition second_batch_notebook : Notebook :=
  mkNotebook bench two_entries (Some [510; 510]%Q) None.

End Demo.

(** ** The cells around the batches *)

Module Report.

(** [NameError] of reading a module-level name that is not bound. *)
Definition NameError (name : string) : Exn :=
  mkExn "NameError" ["name '" ++ name ++ "' is not defined"].

Definition read {A} (name : string) (x : option A) : Outcome A :=
  match x with
  | Some a => Return a
  | None => Raise (NameError name)
  end.


(** The four names cell 15 assigns. *)
Record Columns : Type := mkColumns {
  n : nat;
  col1 : list Q;
  col2 : list string;
  col3 : list string
}.

(** [pandas.DataFrame({"time": col1, "function": col2, "location": col3})]:
    one row (time, function, location) per position; [ValueError] when the
    columns differ in length (its message is left out). *)
Definition DataFrame_columns (c : Columns)
    : Outcome (list (Q * string * string)) :=
  if decide (length (col1 c) = length (col2 c)
             /\ length (col2 c) = length (col3 c))
  then Return (zip (zip (col1 c) (col2 c)) (col3 c))
  else Raise (mkExn "ValueError" []).

Section Cells.
Context {Rdd Store Val : Type}.

Local Abbreviation Notebook :=
  (Notebook (Rdd := Rdd) (Store := Store) (Val := Val)).

(** [t = Benchmark(rdd)], in cells 6 and 12, for the collection [r] made
    on the lines before it. *)
Definition cell_new_benchmark (r : Rdd) (nb : Notebook) : Notebook :=
  mkNotebook (Benchmark_init r) (globals nb) (distributed nb) (local nb).



(** Cell 15:
    [n = len(funcs.keys())],
    [col1 = local + distributed],
    [col2 = funcs.keys() + funcs.keys()],
    [col3 = ['local' for _ in range(n)] + ['distributed' for _ in range(n)]]. *)
Definition cell_columns (nb : Notebook) : Outcome Columns :=
  let ks := keys (funcs (globals nb)) in
  let n := length ks in
  match read "local" (local nb) with
  | Raise e => Raise e
  | Return l =>
      match read "distributed" (distributed nb) with
      | Raise e => Raise e
      | Return d =>
          Return (mkColumns n (l ++ d)%list (ks ++ ks)%list
                    (map (fun _ => "local") (seq 0 n)
                     ++ map (fun _ => "distributed") (seq 0 n))%list)
      end
  end.

(** Cell 16: [df = DataFrame({"time": col1, "function": col2,
    "location": col3})] *)
Definition cell_frame (nb : Notebook) : Outcome (list (Q * string * string)) :=
  match cell_columns nb with
  | Return c => DataFrame_columns c
  | Raise e => Raise e
  end.


(** The rows of one batch in the frame. *)
Definition rows_of (location : string) (names : list string) (ts : list Q)
    : list (Q * string * string) :=
  map (fun row => (row, location)) (zip ts names).

End Cells.

End Report.

Section MoreObservations.
Context {Rdd Store Val : Type}.

Local Abbreviation Closure := (Closure (Rdd := Rdd) (Store := Store) (Val := Val)).

(** A catalog all of whose entries return and leave the catalog alone. *)
Definition catalog_quiet (cat : gmap string Closure) : Prop :=
  forall name f, cat !! name = Some f -> quiet f.

(** An operation that returns [v] after [c] seconds and, while running,
    does [del funcs[name]]. *)
Definition unbinding (name : string) (c : Q) (v : Val) : Closure :=
  Lam (fun r s => mkEffect _ (Return v) r s c [(name, None)]).

(** The next [n] calls of [f] on the stored collection, from state [s]
    on, return and leave the catalog alone. Nothing is asked of calls that
    are not made. *)
Fixpoint quiet_for (overhead : Q) (f : Closure) (n : nat)
    (s : Benchmark * World) : Prop :=
  match n with
  | O => True
  | S n' =>
      returns (outcome _ (call f (rdd s.1) (store s.2))) /\
      rebinds _ (call f (rdd s.1) (store s.2)) = [] /\
      quiet_for overhead f n' (after overhead f s)
  end.

End MoreObservations.

(** ** An operation that gets faster, and then breaks *)

Module Warmup.

Local Abbreviation Closure := (Closure (Rdd := unit) (Store := nat) (Val := unit)).




End Warmup.

(** ** Two operations of different cost *)

Module Pair.



End Pair.

(** ** The harness in binary64

    The same cell 3, with every time a binary64 float: the clock readings
    [timeit.default_timer()] returns, their difference, the division by
    [3.0], the multiplication by [1000] and the comparisons of [min]. *)

Module B64.

Import PrimFloat.
Local Open Scope float_scope.

(** The builtin [min] on a list of floats. *)
Fixpoint min_from (best : float) (l : list float) : float :=
  match l with
  | [] => best
  | x :: l' => min_from (if x <? best then x else best) l'
  end.

Definition py_min (l : list float) : Outcome float :=
  match l with
  | [] => Raise (ValueError "min() arg is an empty sequence")
  | x :: l' => Return (min_from x l')
  end.

Section Harness.
Context {Rdd Store Val : Type}.

(** Seconds spent in each evaluation of the timed statement outside the
    body of the catalog entry. *)
Variable overhead : float.

Record Effect (C : Type) : Type := mkEffect {
  outcome : Outcome Val;
  rdd_after : Rdd;
  store_after : Store;
  elapsed : float;
  rebinds : list (string * option C)
}.
Arguments mkEffect {C}.
Arguments outcome {C}.
Arguments rdd_after {C}.
Arguments store_after {C}.
Arguments elapsed {C}.
Arguments rebinds {C}.

#[warnings="-register-all"]
Inductive Closure : Type :=
| Lam (body : Rdd -> Store -> Effect Closure).

Definition call (f : Closure) : Rdd -> Store -> Effect Closure :=
  match f with Lam body => body end.

Record World : Type := mkWorld {
  funcs : gmap string Closure;
  now : float;
  store : Store
}.

Definition M (A : Type) : Type :=
  Benchmark (Rdd := Rdd) * World -> Outcome A * (Benchmark (Rdd := Rdd) * World).

Definition ret {A} (a : A) : M A := fun s => (Return a, s).

Definition bind {A B} (m : M A) (k : A -> M B) : M B :=
  fun s =>
    match m s with
    | (Return a, s') => k a s'
    | (Raise e, s') => (Raise e, s')
    end.

Notation "x <- m ;; k" := (bind m (fun x => k))
  (at level 100, m at next level, right associativity).

Definition lift {A} (o : Outcome A) : M A := fun s => (o, s).

Fixpoint for_each {A B} (f : A -> M B) (l : list A) : M (list B) :=
  match l with
  | [] => ret []
  | x :: l' => y <- f x ;; ys <- for_each f l' ;; ret (y :: ys)
  end.

Fixpoint repeat_stmt {A} (stmt : M A) (number : nat) : M unit :=
  match number with
  | O => ret tt
  | S n => _ <- stmt ;; repeat_stmt stmt n
  end.

Definition apply_rebinds (ups : list (string * option Closure))
    (cat : gmap string Closure) : gmap string Closure :=
  fold_left (fun m up =>
               match up with
               | (k, Some c) => <[k := c]> m
               | (k, None) => delete k m
               end) ups cat.

(** [lambda: funcs[name](self.rdd)] *)
Definition stmt (name : string) : M Val :=
  fun '(self, w) =>
    match funcs w !! name with
    | None =>
        (Raise (KeyError name),
         (self, mkWorld (funcs w) (now w + overhead) (store w)))
    | Some f =>
        let r := call f (rdd self) (store w) in
        (outcome r,
         (mkBenchmark (rdd_after r),
          mkWorld (apply_rebinds (rebinds r) (funcs w))
                  (now w + overhead + elapsed r)
                  (store_after r)))
    end.

(** [timeit.default_timer()] *)
Definition timer : M float := fun '(self, w) => (Return (now w), (self, w)).

(** [Timer.timeit(number)] *)
Definition timeit {A} (stmt : M A) (number : nat) : M float :=
  t0 <- timer ;;
  _ <- repeat_stmt stmt number ;;
  t1 <- timer ;;
  ret (t1 - t0).

(** [[t.timeit(3)/3.0 * 1000 for _ in range(3)]] *)
Definition trials (name : string) : M (list float) :=
  for_each (fun _ : nat =>
              total <- timeit (stmt name) 3 ;;
              ret (total / 3 * 1000))
           (seq 0 3).

(** [Benchmark.run] *)
Definition run (name : string) : M float :=
  ms <- trials name ;;
  lift (py_min ms).

(** An operation that returns [v] after exactly [d] seconds: a fixed
    delay, with no noise. *)
Definition fixed_delay (d : float) (v : Val) : Closure :=
  Lam (fun r s => mkEffect (Return v) r s d []).

End Harness.

(** Seconds expressed in milliseconds, as [run] does. *)
Definition milliseconds (seconds : float) : float := seconds * 1000.

(** A delay of 700 ms, in the seconds the clock counts. *)
Definition delay_ms : float := 700.
Definition delay_seconds : float := delay_ms / 1000.

(** [funcs = {'sleep': fixed delay of 0.7 s}], the clock at 0. *)
Definition sleeping : World (Rdd := unit) (Store := unit) (Val := unit) :=
  mkWorld {["sleep" := fixed_delay delay_seconds tt]} 0 tt.

End B64.

(** * Properties *)

(** ** The builtin [min] *)

Lemma Qltb_true x y : Qltb x y = true <-> (x < y)%Q.
Proof.
  unfold Qltb. rewrite negb_true_iff, <- not_true_iff_false, Qle_bool_iff.
  split; [apply Qnot_le_lt | apply Qlt_not_le].
Qed.

Lemma Qltb_false x y : Qltb x y = false <-> (y <= x)%Q.
Proof. unfold Qltb. rewrite negb_false_iff. apply Qle_bool_iff. Qed.

Lemma min_from_le_best l : forall best, (min_from best l <= best)%Q.
Proof.
  induction l as [|x l IH]; intros best; simpl.
  - apply Qle_refl.
  - destruct (Qltb x best) eqn:E.
    + apply Qltb_true in E. specialize (IH x). lra.
    + apply IH.
Qed.

Lemma min_from_lower_bound l :
  forall best, Forall (Qle (min_from best l)) l.
Proof.
  induction l as [|x l IH]; intros best; simpl; constructor.
  - destruct (Qltb x best) eqn:E.
    + apply min_from_le_best.
    + apply Qltb_false in E.
      pose proof (min_from_le_best l best). lra.
  - apply IH.
Qed.

Lemma min_from_In l : forall best, In (min_from best l) (best :: l).
Proof.
  induction l as [|x l IH]; intros best; simpl.
  - now left.
  - destruct (Qltb x best).
    + right. apply IH.
    + destruct (IH best) as [E|E]; [now left | now right; right].
Qed.

Lemma py_min_is_minimum x l :
  exists r, py_min (x :: l) = Return r /\ is_minimum r (x :: l).
Proof.
  exists (min_from x l). split; [reflexivity|]. split.
  - apply List.Exists_exists. exists (min_from x l).
    split; [apply min_from_In | apply Qeq_refl].
  - constructor; [apply min_from_le_best | apply min_from_lower_bound].
Qed.

Lemma is_minimum_proper r l l' :
  Forall2 Qeq l l' -> is_minimum r l -> is_minimum r l'.
Proof.
  intros Hl [Hex Hall]. split.
  - clear Hall. revert Hex. induction Hl as [|x y l l' Hxy Hl IH]; intros Hex;
      inversion Hex; subst.
    + left. now rewrite <- Hxy.
    + right. now apply IH.
  - clear Hex. revert Hall. induction Hl as [|x y l l' Hxy Hl IH]; intros Hall;
      inversion Hall; subst; constructor.
    + now rewrite <- Hxy.
    + now apply IH.
Qed.

(** ** How [run] unfolds into evaluations of the timed statement *)

Section HarnessFacts.
Context {Rdd Store Val : Type}.
Variable overhead : Q.

Local Abbreviation Closure := (Closure (Rdd := Rdd) (Store := Store) (Val := Val)).
Local Abbreviation State := (Benchmark (Rdd := Rdd)
                   * World (Rdd := Rdd) (Store := Store) (Val := Val))%type.

Implicit Types (f g : Closure) (s : State) (name : string) (n : nat).

Lemma timeit_unfold {A} (st : M A) n s :
  timeit st n s =
  match repeat_stmt st n s with
  | (Return _, s') => (Return (now s'.2 - now s.2)%Q, s')
  | (Raise e, s') => (Raise e, s')
  end.
Proof.
  unfold timeit, bind, timer, ret. destruct s as [self w]; simpl.
  destruct (repeat_stmt st n (self, w)) as [[u|e] [self' w']]; reflexivity.
Qed.

Lemma repeat_stmt_add {A} (st : M A) a b s :
  repeat_stmt st (a + b) s =
  match repeat_stmt st a s with
  | (Return _, s') => repeat_stmt st b s'
  | (Raise e, s') => (Raise e, s')
  end.
Proof.
  revert s. induction a as [|a IH]; intros s; simpl; [reflexivity|].
  unfold bind. destruct (st s) as [[v|e] s1]; [apply IH | reflexivity].
Qed.

(** A run is nine evaluations of the timed statement and nothing else that
    changes the state: it stops where the first of them raises, with that
    exception, and otherwise returns. *)
Lemma run_follows_statement name s :
  match repeat_stmt (stmt overhead name) 9 s with
  | (Return _, s') => exists r, run overhead name s = (Return r, s')
  | (Raise e, s') => run overhead name s = (Raise e, s')
  end.
Proof.
  change 9%nat with (3 + (3 + 3))%nat. rewrite repeat_stmt_add.
  unfold run, trials. cbn [for_each seq]. unfold bind, ret, lift. cbv beta.
  rewrite timeit_unfold.
  destruct (repeat_stmt (stmt overhead name) 3 s) as [[u1|e1] s1];
    cbv beta iota; [|reflexivity].
  rewrite repeat_stmt_add, timeit_unfold.
  destruct (repeat_stmt (stmt overhead name) 3 s1) as [[u2|e2] s2];
    cbv beta iota; [|reflexivity].
  rewrite timeit_unfold.
  destruct (repeat_stmt (stmt overhead name) 3 s2) as [[u3|e3] s3];
    cbv beta iota; [|reflexivity].
  eexists. reflexivity.
Qed.

(** *** Entries that return and leave the catalog alone *)

Lemma stmt_quiet name f s :
  funcs s.2 !! name = Some f -> quiet f ->
  exists v, stmt overhead name s = (Return v, after overhead f s).
Proof.
  destruct s as [self w]. simpl. intros Hb Hq.
  destruct (Hq (rdd self) (store w)) as [Hret Hcat].
  unfold stmt, after. simpl. rewrite Hb, Hcat. simpl.
  destruct (outcome _ (call f (rdd self) (store w))) as [v|e];
    [exists v; reflexivity | contradiction].
Qed.

Lemma after_n_add f a b s :
  after_n overhead f (a + b) s = after_n overhead f b (after_n overhead f a s).
Proof. revert s. induction a as [|a IH]; intros s; simpl; [reflexivity | apply IH]. Qed.

Lemma after_n_funcs f n s : funcs (after_n overhead f n s).2 = funcs s.2.
Proof. revert s. induction n as [|n IH]; intros s; simpl; [reflexivity|]. now rewrite IH. Qed.

Lemma repeat_stmt_quiet name f n s :
  funcs s.2 !! name = Some f -> quiet f ->
  repeat_stmt (stmt overhead name) n s = (Return tt, after_n overhead f n s).
Proof.
  intros Hb Hq. revert s Hb.
  induction n as [|n IH]; intros s Hb; simpl; [reflexivity|].
  unfold bind. destruct (stmt_quiet name f s Hb Hq) as [v ->].
  apply IH. exact Hb.
Qed.

(** The clock difference over [n] evaluations is the sum of what each of
    them took. *)
Lemma clock_difference f n s :
  (now (after_n overhead f n s).2 - now s.2 == Qsum (durations overhead f n s))%Q.
Proof.
  revert s. induction n as [|n IH]; intros s; simpl.
  - unfold Qsum. simpl. lra.
  - specialize (IH (after overhead f s)). unfold Qsum in *. simpl in *.
    unfold elapsed_at. lra.
Qed.

Lemma trial_quiet name f s :
  funcs s.2 !! name = Some f -> quiet f ->
  exists m, (m == trial_ms overhead f s)%Q /\
    bind (timeit (stmt overhead name) 3) (fun total => ret (total / 3 * 1000)%Q) s
    = (Return m, after_n overhead f 3 s).
Proof.
  intros Hb Hq. unfold bind. rewrite timeit_unfold.
  rewrite (repeat_stmt_quiet name f 3 s Hb Hq).
  eexists. split; [|reflexivity].
  unfold trial_ms. now rewrite clock_difference.
Qed.

Lemma trials_quiet name f s :
  funcs s.2 !! name = Some f -> quiet f ->
  exists m1 m2 m3,
    Forall2 Qeq [m1; m2; m3]
      [trial_ms overhead f s;
       trial_ms overhead f (after_n overhead f 3 s);
       trial_ms overhead f (after_n overhead f 6 s)] /\
    trials overhead name s = (Return [m1; m2; m3], after_n overhead f 9 s).
Proof.
  intros Hb Hq.
  assert (Hb3 : funcs (after_n overhead f 3 s).2 !! name = Some f)
    by now rewrite after_n_funcs.
  assert (Hb6 : funcs (after_n overhead f 6 s).2 !! name = Some f)
    by now rewrite after_n_funcs.
  destruct (trial_quiet name f s Hb Hq) as (m1 & E1 & T1).
  destruct (trial_quiet name f _ Hb3 Hq) as (m2 & E2 & T2).
  destruct (trial_quiet name f _ Hb6 Hq) as (m3 & E3 & T3).
  exists m1, m2, m3. split; [repeat constructor; assumption|].
  unfold trials. cbn [for_each seq].
  unfold bind at 1. rewrite T1.
  unfold bind at 1. unfold bind at 1. rewrite T2.
  unfold bind at 1. unfold bind at 1.
  change (after_n overhead f 3 (after_n overhead f 3 s))
    with (after_n overhead f 6 s).
  rewrite T3. reflexivity.
Qed.

Lemma run_quiet name f s :
  funcs s.2 !! name = Some f -> quiet f ->
  exists r,
    run overhead name s = (Return r, after_n overhead f 9 s) /\
    is_minimum r
      [trial_ms overhead f s;
       trial_ms overhead f (after_n overhead f 3 s);
       trial_ms overhead f (after_n overhead f 6 s)].
Proof.
  intros Hb Hq.
  destruct (trials_quiet name f s Hb Hq) as (m1 & m2 & m3 & Hm & Ht).
  destruct (py_min_is_minimum m1 [m2; m3]) as (r & Hr & Hmin).
  exists r. split.
  - unfold run, bind, lift. now rewrite Ht, Hr.
  - exact (is_minimum_proper _ _ _ Hm Hmin).
Qed.

(** *** Runs whose calls return and leave the catalog alone *)

Lemma quiet_quiet_for f n s : quiet f -> quiet_for overhead f n s.
Proof.
  intros Hq. revert s. induction n as [|n IH]; intros s; simpl; [exact I|].
  destruct (Hq (rdd s.1) (store s.2)) as [Hret Hcat]. auto.
Qed.

Lemma quiet_for_add f a b s :
  quiet_for overhead f (a + b) s ->
  quiet_for overhead f a s /\ quiet_for overhead f b (after_n overhead f a s).
Proof.
  revert s. induction a as [|a IH]; intros s; simpl; [now split|].
  intros (Hret & Hcat & Hrest). destruct (IH _ Hrest) as [Ha Hb]. auto.
Qed.

Lemma repeat_stmt_quiet_for name f n s :
  funcs s.2 !! name = Some f -> quiet_for overhead f n s ->
  repeat_stmt (stmt overhead name) n s = (Return tt, after_n overhead f n s).
Proof.
  revert s. induction n as [|n IH]; intros s Hb Hq; simpl; [reflexivity|].
  destruct Hq as (Hret & Hcat & Hrest).
  unfold bind.
  assert (Es : exists v, stmt overhead name s = (Return v, after overhead f s)).
  { destruct s as [self w]. simpl in *. unfold stmt, after. simpl.
    rewrite Hb, Hcat. simpl.
    destruct (outcome _ (call f (rdd self) (store w))) as [v|e];
      [exists v; reflexivity | contradiction]. }
  destruct Es as [v ->]. apply IH; [exact Hb | exact Hrest].
Qed.

Lemma trial_quiet_for name f s :
  funcs s.2 !! name = Some f -> quiet_for overhead f 3 s ->
  exists m, (m == trial_ms overhead f s)%Q /\
    bind (timeit (stmt overhead name) 3) (fun total => ret (total / 3 * 1000)%Q) s
    = (Return m, after_n overhead f 3 s).
Proof.
  intros Hb Hq. unfold bind. rewrite timeit_unfold.
  rewrite (repeat_stmt_quiet_for name f 3 s Hb Hq).
  eexists. split; [|reflexivity].
  unfold trial_ms. now rewrite clock_difference.
Qed.

Lemma trials_quiet_for name f s :
  funcs s.2 !! name = Some f -> quiet_for overhead f 9 s ->
  exists m1 m2 m3,
    Forall2 Qeq [m1; m2; m3]
      [trial_ms overhead f s;
       trial_ms overhead f (after_n overhead f 3 s);
       trial_ms overhead f (after_n overhead f 6 s)] /\
    trials overhead name s = (Return [m1; m2; m3], after_n overhead f 9 s).
Proof.
  intros Hb Hq.
  destruct (quiet_for_add f 3 6 s Hq) as [Hq0 Hq36].
  destruct (quiet_for_add f 3 3 _ Hq36) as [Hq3 Hq6].
  change (after_n overhead f 3 (after_n overhead f 3 s))
    with (after_n overhead f 6 s) in Hq6.
  assert (Hb3 : funcs (after_n overhead f 3 s).2 !! name = Some f)
    by now rewrite after_n_funcs.
  assert (Hb6 : funcs (after_n overhead f 6 s).2 !! name = Some f)
    by now rewrite after_n_funcs.
  destruct (trial_quiet_for name f s Hb Hq0) as (m1 & E1 & T1).
  destruct (trial_quiet_for name f _ Hb3 Hq3) as (m2 & E2 & T2).
  destruct (trial_quiet_for name f _ Hb6 Hq6) as (m3 & E3 & T3).
  exists m1, m2, m3. split; [repeat constructor; assumption|].
  unfold trials. cbn [for_each seq].
  unfold bind at 1. rewrite T1.
  unfold bind at 1. unfold bind at 1. rewrite T2.
  unfold bind at 1. unfold bind at 1.
  change (after_n overhead f 3 (after_n overhead f 3 s))
    with (after_n overhead f 6 s).
  rewrite T3. reflexivity.
Qed.


Lemma run_state name s :
  (run overhead name s).2 = (repeat_stmt (stmt overhead name) 9 s).2.
Proof.
  pose proof (run_follows_statement name s) as Hrun.
  destruct (repeat_stmt (stmt overhead name) 9 s) as [[u|e] s'].
  - destruct Hrun as [r ->]. reflexivity.
  - now rewrite Hrun.
Qed.

Lemma run_raises name s e :
  (repeat_stmt (stmt overhead name) 9 s).1 = Raise e ->
  (run overhead name s).1 = Raise e.
Proof.
  pose proof (run_follows_statement name s) as Hrun.
  destruct (repeat_stmt (stmt overhead name) 9 s) as [[u|e'] s']; simpl.
  - discriminate.
  - intros [= ->]. now rewrite Hrun.
Qed.

(** *** Entries that leave the collection and the catalog alone *)

Lemma stmt_readonly name s :
  catalog_readonly (funcs s.2) ->
  rdd (stmt overhead name s).2.1 = rdd s.1 /\
  funcs (stmt overhead name s).2.2 = funcs s.2.
Proof.
  destruct s as [self w]. simpl. intros Hcat. unfold stmt.
  destruct (funcs w !! name) as [f|] eqn:Hb; simpl; [|now split].
  destruct (Hcat name f Hb (rdd self) (store w)) as [-> ->]. now split.
Qed.

Lemma repeat_stmt_readonly name n s :
  catalog_readonly (funcs s.2) ->
  rdd (repeat_stmt (stmt overhead name) n s).2.1 = rdd s.1 /\
  funcs (repeat_stmt (stmt overhead name) n s).2.2 = funcs s.2.
Proof.
  revert s. induction n as [|n IH]; intros s Hcat; simpl; [now split|].
  unfold bind.
  destruct (stmt_readonly name s Hcat) as [Hr Hf].
  destruct (stmt overhead name s) as [[v|e] s1]; simpl in *.
  - rewrite <- Hr, <- Hf. apply IH. now rewrite Hf.
  - now split.
Qed.

Lemma run_readonly name s :
  catalog_readonly (funcs s.2) ->
  rdd (run overhead name s).2.1 = rdd s.1 /\
  funcs (run overhead name s).2.2 = funcs s.2.
Proof. rewrite run_state. apply repeat_stmt_readonly. Qed.

(** *** Comprehensions *)

Lemma for_each_length {A B} (fn : A -> M B) (l : list A) :
  forall s ys s', for_each fn l s = (Return ys, s') -> length ys = length l.
Proof.
  induction l as [|x l IH]; intros s ys s'; simpl.
  - unfold ret. now intros [= <- _].
  - unfold bind, ret. destruct (fn x s) as [[y|e] s1]; [|discriminate].
    destruct (for_each fn l s1) as [[ys1|e] s2] eqn:E; [|discriminate].
    intros [= <- _]. simpl. f_equal. exact (IH _ _ _ E).
Qed.

(** A comprehension that raises had produced the values of the elements
    before the failing one; they are not part of its outcome. *)
Lemma for_each_raises {A B} (fn : A -> M B) (l : list A) :
  forall s e s', for_each fn l s = (Raise e, s') ->
  exists pre x post ys s1,
    l = (pre ++ x :: post)%list /\
    for_each fn pre s = (Return ys, s1) /\
    fn x s1 = (Raise e, s').
Proof.
  induction l as [|x l IH]; intros s e s'; simpl.
  - unfold ret. discriminate.
  - unfold bind, ret. destruct (fn x s) as [[y|e1] s1] eqn:Ex.
    + destruct (for_each fn l s1) as [[ys1|e2] s2] eqn:E; [discriminate|].
      intros [= <- <-].
      destruct (IH _ _ _ E) as (pre & x' & post & ys & s3 & -> & Hpre & Hx).
      exists (x :: pre), x', post, (y :: ys), s3. split; [reflexivity|].
      split; [|exact Hx]. simpl. unfold bind, ret. now rewrite Ex, Hpre.
    + intros [= <- <-]. exists [], x, l, [], s. now repeat split.
Qed.

(** *** Operations of constant cost *)

Lemma constant_cost_quiet c (v : Val) :
  quiet (constant_cost c v : Closure).
Proof. intros r st. split; [exact I | reflexivity]. Qed.



End HarnessFacts.

(** ** The measurement policy *)



(** ** Names the catalog does not bind *)

(** C2, as amended. [run name] with a name the catalog does not bind fails
    with the builtin [KeyError] carrying that name, raised by the subscript
    [funcs[name]] in the first timed evaluation; no entry is called, and
    nothing but the clock has moved. *)
Theorem run_unknown_name_raises_KeyError
    {Rdd Store Val : Type} (overhead : Q) (name : string)
    (self : Benchmark (Rdd := Rdd))
    (w : World (Rdd := Rdd) (Store := Store) (Val := Val)) :
  funcs w !! name = None ->
  run overhead name (self, w)
  = (Raise (KeyError name),
     (self, mkWorld (funcs w) (now w + overhead)%Q (store w))).
Proof.
  intros Hb. pose proof (run_follows_statement overhead name (self, w)) as Hrun.
  cbn [repeat_stmt] in Hrun. unfold bind at 1, stmt at 1 in Hrun.
  now rewrite Hb in Hrun.
Qed.

Lemma run_unknown_name_raises_KeyError_witness :
  funcs Demo.one_entry !! "nonexistent" = None /\
  (run (1 # 100) "nonexistent" (Demo.bench, Demo.one_entry)).1
  = Raise (mkExn "KeyError" ["nonexistent"]).
Proof.
  assert (Hb : funcs Demo.one_entry !! "nonexistent" = None) by reflexivity.
  split; [exact Hb|].
  now rewrite (run_unknown_name_raises_KeyError (1 # 100) "nonexistent"
                 Demo.bench Demo.one_entry Hb).
Defined.

(** C2 as stated fails: the exception raised for an unbound name is not of
    class [UnknownOperationError]. *)
Lemma run_unknown_name_not_UnknownOperationError :
  funcs Demo.one_entry !! "nonexistent" = None /\
  ~ exists e,
      (run (1 # 100) "nonexistent" (Demo.bench, Demo.one_entry)).1 = Raise e /\
      exn_class e = "UnknownOperationError".
Proof.
  split; [reflexivity|].
  intros (e & He & Hclass). vm_compute in He. injection He as <-.
  discriminate Hclass.
Qed.

(** ** Operations that raise *)

(** C3, as amended. When one of the nine timed evaluations raises, [run]
    raises that very exception, unchanged, and returns no timing; the state
    is the one the failing evaluation left. *)
Theorem run_propagates_failure_unchanged
    {Rdd Store Val : Type} (overhead : Q) (name : string) (e : Exn)
    (s : Benchmark (Rdd := Rdd)
         * World (Rdd := Rdd) (Store := Store) (Val := Val)) :
  (repeat_stmt (stmt overhead name) 9 s).1 = Raise e ->
  run overhead name s = (Raise e, (repeat_stmt (stmt overhead name) 9 s).2).
Proof.
  intros He. rewrite <- run_state.
  pose proof (run_raises overhead name s e He) as Hr.
  destruct (run overhead name s) as [o s']. simpl in *. now subst.
Qed.

Lemma run_propagates_failure_unchanged_witness :
  (repeat_stmt (stmt (1 # 100) "sum") 9
     (Demo.bench, Demo.one_broken_entry)).1 = Raise Demo.boom /\
  (run (1 # 100) "sum" (Demo.bench, Demo.one_broken_entry)).1
  = Raise Demo.boom.
Proof.
  assert (He : (repeat_stmt (stmt (1 # 100) "sum") 9
                  (Demo.bench, Demo.one_broken_entry)).1 = Raise Demo.boom)
    by reflexivity.
  split; [exact He|].
  now rewrite (run_propagates_failure_unchanged (1 # 100) "sum" Demo.boom
                 (Demo.bench, Demo.one_broken_entry) He).
Defined.

(** C3 as stated fails: the exception that reaches the caller of [run] is
    the operation's own, and nothing in it names the operation. *)
Lemma run_attaches_no_context :
  outcome _ (call Demo.broken tt tt) = Raise Demo.boom /\
  ~ exists e,
      (run (1 # 100) "sum" (Demo.bench, Demo.one_broken_entry)).1 = Raise e /\
      In "sum" (exn_args e).
Proof.
  split; [reflexivity|].
  intros (e & He & Hin). vm_compute in He. injection He as <-.
  exact Hin.
Qed.

(** ** Batches *)

Lemma batch_outcome {Rdd Store Val : Type} (overhead : Q)
    (s : Benchmark (Rdd := Rdd)
         * World (Rdd := Rdd) (Store := Store) (Val := Val)) :
  match run_all overhead s with
  | (Return ts, _) => length ts = length (keys (funcs s.2))
  | (Raise e, s') =>
      exists pre name post ts s1,
        keys (funcs s.2) = (pre ++ name :: post)%list /\
        for_each (run overhead) pre s = (Return ts, s1) /\
        run overhead name s1 = (Raise e, s')
  end.
Proof.
  unfold run_all.
  destruct (for_each (run overhead) (keys (funcs s.2)) s) as [[ts|e] s'] eqn:E.
  - exact (for_each_length _ _ _ _ _ E).
  - exact (for_each_raises _ _ _ _ _ E).
Qed.

(** C4, as amended. When an operation of a batch fails, the comprehension
    raises that operation's failure and the name of the batch is not
    assigned: the timings [ts] obtained for the operations before it are in
    no name the caller can read, while the two names keep what an earlier
    cell had assigned. A batch in which every operation succeeds assigns
    one timing per catalog name. *)
Theorem failing_batch_assigns_nothing
    {Rdd Store Val : Type} (overhead : Q)
    (nb : Notebook (Rdd := Rdd) (Store := Store) (Val := Val)) :
  batch_result overhead (cell_distributed overhead) distributed local nb /\
  batch_result overhead (cell_local overhead) local distributed nb.
Proof.
  unfold batch_result, cell_distributed, cell_local.
  pose proof (batch_outcome overhead (t nb, globals nb)) as Hb.
  destruct (run_all overhead (t nb, globals nb)) as [[ts|e] [b w]]; simpl in *.
  - split; (split; [exists ts; now split | reflexivity]).
  - split; (split; [exact Hb | now split]).
Qed.

(** The timings of a completed first batch survive a failing second one. *)
Example failing_second_batch_keeps_first :
  (cell_local (1 # 100) Demo.second_batch_notebook).1 = Some Demo.boom /\
  distributed (cell_local (1 # 100) Demo.second_batch_notebook).2
  = Some [510; 510]%Q /\
  local (cell_local (1 # 100) Demo.second_batch_notebook).2 = None.
Proof. repeat split. Qed.

(** C4 as stated fails: in a batch over ['a', 'b'] where 'b' raises, the
    timing of 'a' was obtained, and after the cell neither name holds it. *)
Lemma failing_batch_discards_earlier_timings :
  keys (funcs (globals Demo.fresh_notebook)) = ["a"; "b"] /\
  (run (1 # 100) "a" (t Demo.fresh_notebook, globals Demo.fresh_notebook)).1
  = Return (12240000000 # 24000000)%Q /\
  (cell_distributed (1 # 100) Demo.fresh_notebook).1 = Some Demo.boom /\
  ~ exists ts,
      distributed (cell_distributed (1 # 100) Demo.fresh_notebook).2 = Some ts.
Proof.
  split; [reflexivity|]. split; [reflexivity|]. split; [reflexivity|].
  intros (ts & Hts). vm_compute in Hts. discriminate Hts.
Qed.

(** ** Bounds on the reported value *)

Lemma mean_in_ms x : (x / 3 * 1000 == x * (1000 # 3))%Q.
Proof. field. Qed.

Lemma trial_ms_lower_bound {Rdd Store Val : Type} (overhead d : Q)
    (f : Closure (Rdd := Rdd) (Store := Store) (Val := Val))
    (s : Benchmark * World) :
  (0 <= overhead)%Q ->
  (forall r st, d <= elapsed _ (call f r st))%Q ->
  (1000 * d <= trial_ms overhead f s)%Q.
Proof.
  intros Ho Hd. unfold trial_ms, Qsum. cbn [durations fold_right].
  rewrite mean_in_ms. unfold elapsed_at.
  pose proof (Hd (rdd s.1) (store s.2)).
  pose proof (Hd (rdd (after overhead f s).1) (store (after overhead f s).2)).
  pose proof (Hd (rdd (after overhead f (after overhead f s)).1)
                 (store (after overhead f (after overhead f s)).2)).
  lra.
Qed.

(** *** The same run in binary64 *)

Section B64Facts.
Context {Rdd Store Val : Type}.
Variable overhead : PrimFloat.float.

Local Abbreviation State64 :=
  (Benchmark (Rdd := Rdd)
   * B64.World (Rdd := Rdd) (Store := Store) (Val := Val))%type.

Implicit Types (s : State64) (name : string).

Lemma min_from_In_b64 l :
  forall best, In (B64.min_from best l) (best :: l).
Proof.
  induction l as [|x l IH]; intros best; simpl.
  - now left.
  - destruct (PrimFloat.ltb x best).
    + right. apply IH.
    + destruct (IH best) as [E|E]; [now left | now right; right].
Qed.

Lemma timeit_unfold_b64 {A} (st : B64.M A) n s :
  B64.timeit st n s =
  match B64.repeat_stmt st n s with
  | (Return _, s') =>
      (Return (PrimFloat.sub (B64.now s'.2) (B64.now s.2)), s')
  | (Raise e, s') => (Raise e, s')
  end.
Proof.
  unfold B64.timeit, B64.bind, B64.timer, B64.ret.
  destruct s as [self w]; simpl.
  destruct (B64.repeat_stmt st n (self, w)) as [[u|e] [self' w']]; reflexivity.
Qed.

Lemma repeat_stmt_add_b64 {A} (st : B64.M A) a b s :
  B64.repeat_stmt st (a + b) s =
  match B64.repeat_stmt st a s with
  | (Return _, s') => B64.repeat_stmt st b s'
  | (Raise e, s') => (Raise e, s')
  end.
Proof.
  revert s. induction a as [|a IH]; intros s; simpl; [reflexivity|].
  unfold B64.bind. destruct (st s) as [[v|e] s1]; [apply IH | reflexivity].
Qed.

(** The nine evaluations returning, the comprehension yields three trial
    means, each the clock difference over three evaluations divided by 3
    and multiplied by 1000, all in binary64, and [run] returns one of
    them. *)
Lemma run_one_of_trials_b64 name s :
  returns (B64.repeat_stmt (B64.stmt overhead name) 9 s).1 ->
  exists r m1 m2 m3,
    (B64.trials overhead name s).1 = Return [m1; m2; m3] /\
    (B64.run overhead name s).1 = Return r /\
    In r [m1; m2; m3].
Proof.
  change 9%nat with (3 + (3 + 3))%nat. rewrite repeat_stmt_add_b64.
  unfold B64.run, B64.trials. cbn [B64.for_each seq].
  unfold B64.bind, B64.ret, B64.lift. cbv beta.
  rewrite timeit_unfold_b64.
  destruct (B64.repeat_stmt (B64.stmt overhead name) 3 s) as [[u1|e1] s1];
    cbv beta iota; [|contradiction].
  rewrite repeat_stmt_add_b64, timeit_unfold_b64.
  destruct (B64.repeat_stmt (B64.stmt overhead name) 3 s1) as [[u2|e2] s2];
    cbv beta iota; [|contradiction].
  rewrite timeit_unfold_b64.
  destruct (B64.repeat_stmt (B64.stmt overhead name) 3 s2) as [[u3|e3] s3];
    cbv beta iota; [|contradiction].
  intros _. do 4 eexists. split; [reflexivity|]. split; [reflexivity|].
  apply min_from_In_b64.
Qed.

End B64Facts.

(** C6, as amended. For an operation whose nine calls return and leave
    the catalog alone, and whose every invocation takes a fixed delay [d]
    (seconds) plus nonnegative noise: the value [run] returns, as the code computes
    it in binary64, is one of the three trial means observed, hence never
    above their maximum; and if the clock difference, the division by 3.0
    and the multiplication by 1000 are exact, it is at least [d], both as
    it stands and expressed in milliseconds like the value returned. *)
Theorem run_between_delay_and_max_trial_mean
    {Rdd Store Val : Type} (overhead d : Q) (name : string)
    (f : Closure (Rdd := Rdd) (Store := Store) (Val := Val))
    (s : Benchmark * World)
    (overhead64 : PrimFloat.float)
    (s64 : Benchmark (Rdd := Rdd)
           * B64.World (Rdd := Rdd) (Store := Store) (Val := Val)) :
  returns (B64.repeat_stmt (B64.stmt overhead64 name) 9 s64).1 ->
  funcs s.2 !! name = Some f ->
  quiet_for overhead f 9 s ->
  (0 <= overhead)%Q ->
  (0 <= d)%Q ->
  (forall r st, exists noise,
      (0 <= noise)%Q /\ (elapsed _ (call f r st) == d + noise)%Q) ->
  (exists r m1 m2 m3,
     (B64.trials overhead64 name s64).1 = Return [m1; m2; m3] /\
     (B64.run overhead64 name s64).1 = Return r /\
     In r [m1; m2; m3]) /\
  (exists r m1 m2 m3,
     (trials overhead name s).1 = Return [m1; m2; m3] /\
     (run overhead name s).1 = Return r /\
     (1000 * d <= r)%Q /\ (d <= r)%Q /\
     (r <= Qmax m1 (Qmax m2 m3))%Q).
Proof.
  intros H64 Hb Hq Ho Hd0 Hnoise.
  split; [exact (run_one_of_trials_b64 overhead64 name s64 H64)|].
  assert (Hd : forall r st, (d <= elapsed _ (call f r st))%Q).
  { intros r st. destruct (Hnoise r st) as (noise & Hn & ->). lra. }
  destruct (trials_quiet_for overhead name f s Hb Hq) as (m1 & m2 & m3 & Hm & Ht).
  destruct (py_min_is_minimum m1 [m2; m3]) as (r & Hr & Hex & Hall).
  exists r, m1, m2, m3. split; [now rewrite Ht|]. split.
  { unfold run, bind, lift. now rewrite Ht, Hr. }
  assert (Hlow : (1000 * d <= r)%Q).
  { pose proof (trial_ms_lower_bound overhead d f s Ho Hd) as L1.
    pose proof (trial_ms_lower_bound overhead d f (after_n overhead f 3 s) Ho Hd) as L2.
    pose proof (trial_ms_lower_bound overhead d f (after_n overhead f 6 s) Ho Hd) as L3.
    inversion Hm as [|? ? ? ? E1 Hm2]; subst.
    inversion Hm2 as [|? ? ? ? E2 Hm3]; subst.
    inversion Hm3 as [|? ? ? ? E3 _]; subst.
    rewrite <- E1 in L1. rewrite <- E2 in L2. rewrite <- E3 in L3.
    inversion Hex as [? ? Hx|? ? Hex2]; subst; [now rewrite Hx|].
    inversion Hex2 as [? ? Hx|? ? Hex3]; subst; [now rewrite Hx|].
    inversion Hex3 as [? ? Hx|? ? Hex4]; subst; [now rewrite Hx|].
    inversion Hex4. }
  split; [exact Hlow|]. split; [lra|].
  inversion Hall as [|? ? Hle _]; subst.
  pose proof (Q.le_max_l m1 (Qmax m2 m3)). lra.
Qed.

(** The fixed delay of 0.7 s, in binary64 and in exact arithmetic. *)
Lemma run_between_delay_and_max_trial_mean_witness :
  let exact : World (Rdd := unit) (Store := unit) (Val := unit) :=
    mkWorld {["sleep" := constant_cost (7 # 10) tt]} 0 tt in
  (exists r m1 m2 m3,
     (B64.trials PrimFloat.zero "sleep" (Demo.bench, B64.sleeping)).1
     = Return [m1; m2; m3] /\
     (B64.run PrimFloat.zero "sleep" (Demo.bench, B64.sleeping)).1 = Return r /\
     In r [m1; m2; m3]) /\
  (exists r,
     (run 0 "sleep" (Demo.bench, exact)).1 = Return r /\ (r == 700)%Q).
Proof.
  intros exact.
  destruct (run_between_delay_and_max_trial_mean 0 (7 # 10) "sleep"
              (constant_cost (7 # 10) tt) (Demo.bench, exact)
              PrimFloat.zero (Demo.bench, B64.sleeping))
    as (H64 & r & m1 & m2 & m3 & _ & Hr & _).
  - vm_compute. exact I.
  - reflexivity.
  - vm_compute. repeat split.
  - discriminate.
  - discriminate.
  - intros r st. exists 0%Q. split; [discriminate | reflexivity].
  - split; [exact H64|]. exists r. split; [exact Hr|].
    vm_compute in Hr. injection Hr as <-. reflexivity.
Defined.

(** C6 as stated fails on the value the code computes: an operation with
    a fixed delay of 700 ms and no noise, timed with no overhead, is
    reported below 700 ms, through the rounding of the three additions
    of the clock, of the division and of the multiplication. *)
Lemma fixed_delay_reported_below_the_delay :
  PrimFloat.eqb (B64.milliseconds B64.delay_seconds) B64.delay_ms = true /\
  (forall r st : unit,
     B64.elapsed _
       (B64.call (B64.fixed_delay (Rdd := unit) (Store := unit)
                    B64.delay_seconds tt) r st)
     = B64.delay_seconds) /\
  exists r,
    (B64.run PrimFloat.zero "sleep" (Demo.bench, B64.sleeping)).1 = Return r /\
    PrimFloat.ltb r B64.delay_ms = true.
Proof.
  split; [vm_compute; reflexivity|]. split; [reflexivity|].
  eexists. split; vm_compute; reflexivity.
Qed.

(** ** Where the catalog is consulted *)







(** ** The engine *)

Section EngineFacts.
Context {K : Type} `{Countable K} {V V2 : Type}.

Implicit Types (c : Engine.Collection K V) (e : Engine.EngineError).




Lemma combine_from_returns op (f : V -> V -> Outcome V) (vs : list V) :
  (forall x y, returns (f x y)) ->
  forall acc, exists v, Engine.combine_from op f acc vs = Engine.Ok v.
Proof.
  intros Hf. induction vs as [|v vs IH]; intros acc; simpl.
  - now exists acc.
  - specialize (Hf acc v). destruct (f acc v) as [acc'|cause];
      [apply IH | contradiction].
Qed.




Lemma combine_from_pure op (g : V -> V -> V) (vs : list V) :
  forall acc,
  Engine.combine_from op (pure2 g) acc vs = Engine.Ok (fold_left g vs acc).
Proof. induction vs as [|v vs IH]; intros acc; simpl; [reflexivity | apply IH]. Qed.


Lemma map_values_pure (h : V -> V2) c :
  exists r, Engine.map_values (fun x => Return (h x)) c = Engine.Ok r.
Proof.
  induction c as [|[k v] c [r IH]]; simpl; [now eexists|].
  rewrite IH. now eexists.
Qed.

Lemma filter_pure (p : K * V -> bool) c :
  exists r, Engine.filter (fun kv => Return (p kv)) c = Engine.Ok r.
Proof.
  induction c as [|kv c [r IH]]; simpl; [now eexists|].
  rewrite IH. now eexists.
Qed.

Lemma combine_all_pure (g : V -> V -> V) c :
  forall m : gmap K V, exists m', Engine.combine_all (pure2 g) m c = Engine.Ok m'.
Proof.
  induction c as [|kv c IH]; intros m; simpl; [now eexists|].
  unfold Engine.combine_into, pure2. destruct (m !! kv.1); apply IH.
Qed.


End EngineFacts.




(** C8. The collection built from values [10,20,30,40] and keys [1,1,2,2]:
    [group_by_key] yields {1: [10,20], 2: [30,40]}; [reduce_by_key(add)]
    yields the records (1,30) and (2,70) and no other, in some order;
    [filter(k>1)] yields [(2,30),(2,40)]; [reduce(add)] yields 100. *)
Theorem concrete_scenario :
  Engine.Collection_from Scenario.values Scenario.keys
  = Engine.Ok Scenario.records /\
  Engine.group_by_key Scenario.records
  = {[ 1%Z := [10; 20]%Z; 2%Z := [30; 40]%Z ]} /\
  (exists r, Engine.reduce_by_key Scenario.add Scenario.records = Engine.Ok r /\
             r ≡ₚ [(1, 30); (2, 70)]%Z) /\
  Engine.filter Scenario.key_above_one Scenario.records
  = Engine.Ok [(2, 30); (2, 40)]%Z /\
  Engine.reduce Scenario.add Scenario.records = Engine.Ok 100%Z.
Proof.
  split; [reflexivity|]. split; [vm_compute; reflexivity|]. split.
  - exists [(2, 70); (1, 30)]%Z. split; [vm_compute; reflexivity|].
    apply perm_swap.
  - split; reflexivity.
Qed.

(** ** The notebook's catalog leaves the collection alone *)

Section CatalogFacts.
Context {K : Type} `{Countable K} {V V2 Store : Type}.
Variables (add maximum : V -> V -> V) (vsum : V -> V2) (gt50 : K -> bool).
Variable cost : string -> Engine.Collection K V -> Q.

Local Abbreviation catalog :=
  (notebook_funcs (Store := Store) add maximum vsum gt50 cost).

Lemma notebook_funcs_entry name f :
  catalog !! name = Some f ->
  exists op, f = entry cost name op.
Proof.
  unfold notebook_funcs. intros Hf.
  repeat (apply lookup_insert_Some in Hf as [[<- <-]|[_ Hf]];
          [eexists; reflexivity|]).
  now rewrite lookup_empty in Hf.
Qed.

(** A call of an engine-built entry that returns is followed by calls that
    return: the entry leaves the collection as it was. *)
Lemma entry_quiet_for (overhead : Q) name op n
    (s : Benchmark * World (Store := Store)) :
  returns (Engine.to_outcome (op (rdd s.1))) ->
  quiet_for overhead (entry cost name op) n s.
Proof.
  revert s. induction n as [|n IH]; intros s Hs; simpl; [exact I|].
  split; [exact Hs|]. split; [reflexivity|]. now apply IH.
Qed.

(** On a collection that is not empty every entry of the notebook's
    catalog returns, however often it is called; on the empty one ['sum']
    and ['max'] raise. *)
Lemma notebook_funcs_quiet_for (overhead : Q) name f n
    (c : Engine.Collection K V) (w : World (Store := Store)) :
  catalog !! name = Some f -> c <> [] ->
  quiet_for overhead f n (Benchmark_init c, w).
Proof.
  unfold notebook_funcs. intros Hf Hc.
  destruct c as [|[k v] c]; [contradiction|].
  repeat (apply lookup_insert_Some in Hf as [[_ <-]|[_ Hf]];
          [apply entry_quiet_for; simpl|]);
    [| | | | | | |now rewrite lookup_empty in Hf].
  - exact I.
  - unfold funcs_reduceByKey, Engine.reduce_by_key.
    destruct (combine_all_pure add ((k, v) :: c) ∅) as [m ->]. exact I.
  - exact I.
  - unfold funcs_map.
    destruct (map_values_pure vsum ((k, v) :: c)) as [r ->]. exact I.
  - unfold funcs_filter.
    destruct (filter_pure (fun kv => gt50 kv.1) ((k, v) :: c)) as [r ->].
    exact I.
  - unfold funcs_max. simpl. rewrite combine_from_pure. exact I.
  - unfold funcs_sum. simpl. rewrite combine_from_pure. exact I.
Qed.

Lemma notebook_funcs_readonly : catalog_readonly catalog.
Proof.
  intros name f Hf. destruct (notebook_funcs_entry name f Hf) as [op ->].
  intros r st. now split.
Qed.

End CatalogFacts.

(** C5. With the notebook's catalog, every operation called twice on a
    collection gives equal results and leaves the collection as it was;
    every timed evaluation finds the collection a [Benchmark] holds as it
    was at the start; and that collection, hence what its [collect()]
    yields, is the same after a [run] as before, whether [run] returns or
    raises. *)
Theorem run_leaves_collection_unchanged
    {K : Type} `{Countable K} {V V2 Store : Type}
    (add maximum : V -> V -> V) (vsum : V -> V2) (gt50 : K -> bool)
    (cost : string -> Engine.Collection K V -> Q)
    (overhead : Q) (name : string) (f : Closure)
    (c : Engine.Collection K V) (w : World (Store := Store)) :
  funcs w = notebook_funcs add maximum vsum gt50 cost ->
  funcs w !! name = Some f ->
  (forall st st',
     outcome _ (call f c st)
     = outcome _ (call f (rdd_after _ (call f c st)) st')) /\
  (forall st, rdd_after _ (call f c st) = c) /\
  (forall n,
     rdd (repeat_stmt (stmt overhead name) n (Benchmark_init c, w)).2.1 = c) /\
  rdd (run overhead name (Benchmark_init c, w)).2.1 = c /\
  Engine.collect (rdd (run overhead name (Benchmark_init c, w)).2.1)
  = Engine.collect c.
Proof.
  intros Hcat Hf.
  assert (Hro : catalog_readonly (funcs (Benchmark_init c, w).2)).
  { simpl. rewrite Hcat. apply notebook_funcs_readonly. }
  assert (Hrun : rdd (run overhead name (Benchmark_init c, w)).2.1 = c)
    by apply (run_readonly overhead name _ Hro).
  rewrite Hcat in Hf. destruct (notebook_funcs_entry _ _ _ _ _ _ _ Hf) as [op ->].
  split; [reflexivity|]. split; [reflexivity|]. split.
  - intros n. apply (repeat_stmt_readonly overhead name n _ Hro).
  - split; [exact Hrun | now rewrite Hrun].
Qed.

Lemma run_leaves_collection_unchanged_witness :
  let cost := fun (_ : string) (_ : Engine.Collection Z Z) => (1 # 2)%Q in
  let w : World (Store := unit) :=
    mkWorld (notebook_funcs Z.add Z.max Z.abs (Z.ltb 50) cost) 0 tt in
  funcs w = notebook_funcs Z.add Z.max Z.abs (Z.ltb 50) cost /\
  funcs w !! "sum" = Some (entry cost "sum" (funcs_sum Z.add)) /\
  (exists r,
     (run (1 # 100) "sum" (Benchmark_init Scenario.records, w)).1 = Return r /\
     (r == 510)%Q) /\
  Engine.collect
    (rdd (run (1 # 100) "sum" (Benchmark_init Scenario.records, w)).2.1)
  = [10; 20; 30; 40]%Z.
Proof.
  intros cost w.
  assert (Hcat : funcs w = notebook_funcs Z.add Z.max Z.abs (Z.ltb 50) cost)
    by reflexivity.
  assert (Hf : funcs w !! "sum" = Some (entry cost "sum" (funcs_sum Z.add)))
    by reflexivity.
  split; [exact Hcat|]. split; [exact Hf|].
  split; [eexists; split; [vm_compute; reflexivity | reflexivity]|].
  destruct (run_leaves_collection_unchanged Z.add Z.max Z.abs (Z.ltb 50) cost
              (1 # 100) "sum" _ Scenario.records w Hcat Hf)
    as (_ & _ & _ & _ & ->).
  reflexivity.
Defined.

(** ** Batches over whole catalogs *)

Section BatchFacts.
Context {Rdd Store Val : Type}.
Variable overhead : Q.

Local Abbreviation Closure := (Closure (Rdd := Rdd) (Store := Store) (Val := Val)).
Local Abbreviation State := (Benchmark (Rdd := Rdd)
                   * World (Rdd := Rdd) (Store := Store) (Val := Val))%type.
Local Abbreviation Notebook :=
  (Notebook (Rdd := Rdd) (Store := Store) (Val := Val)).

Implicit Types (f g : Closure) (s : State) (name : string)
  (cat : gmap string Closure) (nb : Notebook).

Lemma keys_bound cat name : name ∈ keys cat <-> is_Some (cat !! name).
Proof.
  unfold keys. rewrite list_elem_of_fmap. split.
  - intros ([k f] & -> & Hin). apply elem_of_map_to_list in Hin. now exists f.
  - intros [f Hf]. exists (name, f). split; [reflexivity|].
    now apply elem_of_map_to_list.
Qed.

(** A comprehension whose body returns on every element, from every state
    satisfying an invariant it keeps, returns one value per element. *)
Lemma for_each_returns {A B} (fn : A -> M B) (Inv : State -> Prop)
    (P : A -> B -> Prop) (l : list A) :
  (forall x s, x ∈ l -> Inv s ->
     exists y s', fn x s = (Return y, s') /\ Inv s' /\ P x y) ->
  forall s, Inv s ->
  exists ys s', for_each fn l s = (Return ys, s') /\ Inv s' /\ Forall2 P l ys.
Proof.
  induction l as [|x l IH]; intros Hfn s Hs; simpl.
  - exists [], s. repeat split; [assumption | constructor].
  - destruct (Hfn x s) as (y & s1 & Ey & Hs1 & Hy); [left | assumption|].
    destruct (IH (fun x' s' Hx' => Hfn x' s' (list_elem_of_further _ _ _ Hx'))
                 s1 Hs1) as (ys & s2 & Eys & Hs2 & Hys).
    exists (y :: ys), s2. unfold bind, ret. rewrite Ey, Eys.
    repeat split; [assumption | now constructor].
Qed.

(** Whether it returns or raises, a comprehension ends in a state that
    satisfies every invariant its body keeps. *)
Lemma for_each_preserves {A B} (fn : A -> M B) (Inv : State -> Prop)
    (l : list A) :
  (forall x s, Inv s -> Inv (fn x s).2) ->
  forall s, Inv s -> Inv (for_each fn l s).2.
Proof.
  intros Hfn. induction l as [|x l IH]; intros s Hs; simpl; [assumption|].
  unfold bind, ret. specialize (Hfn x s Hs).
  destruct (fn x s) as [[y|e] s1]; simpl in *; [|assumption].
  specialize (IH s1 Hfn).
  destruct (for_each fn l s1) as [[ys|e] s2]; assumption.
Qed.

Lemma run_quiet_catalog name s :
  catalog_quiet (funcs s.2) -> is_Some (funcs s.2 !! name) ->
  exists r s', run overhead name s = (Return r, s') /\ funcs s'.2 = funcs s.2.
Proof.
  intros Hcat [f Hf].
  destruct (run_quiet overhead name f s Hf (Hcat name f Hf)) as (r & Hr & _).
  exists r, (after_n overhead f 9 s). split; [exact Hr|]. apply after_n_funcs.
Qed.

(** With a read-only catalog, what an evaluation of the timed statement
    raises for a bound name is what the entry raised on the collection. *)
Lemma repeat_stmt_raises_readonly name f k :
  forall s e,
  catalog_readonly (funcs s.2) -> funcs s.2 !! name = Some f ->
  (repeat_stmt (stmt overhead name) k s).1 = Raise e ->
  exists st, outcome _ (call f (rdd s.1) st) = Raise e.
Proof.
  induction k as [|k IH]; intros s e Hcat Hf; simpl; [discriminate|].
  unfold bind.
  destruct (stmt_readonly overhead name s Hcat) as [Hr Hc].
  destruct (stmt overhead name s) as [[v|e1] s1] eqn:Es; simpl in *.
  - intros Hk. rewrite <- Hr. apply (IH s1 e); [now rewrite Hc..|exact Hk].
  - intros [= ->]. destruct s as [self w]. simpl in *.
    unfold stmt in Es. rewrite Hf in Es. injection Es as Ho _.
    now exists (store w).
Qed.

Lemma run_raises_readonly name f s e :
  catalog_readonly (funcs s.2) -> funcs s.2 !! name = Some f ->
  (run overhead name s).1 = Raise e ->
  exists st, outcome _ (call f (rdd s.1) st) = Raise e.
Proof.
  intros Hcat Hf Hrun.
  apply (repeat_stmt_raises_readonly name f 9 s e Hcat Hf).
  pose proof (run_follows_statement overhead name s) as H9.
  destruct (repeat_stmt (stmt overhead name) 9 s) as [[u|e1] s1]; simpl.
  - destruct H9 as [r Hr]. rewrite Hr in Hrun. discriminate.
  - rewrite H9 in Hrun. simpl in Hrun. now injection Hrun as ->.
Qed.

Lemma run_all_readonly s :
  catalog_readonly (funcs s.2) ->
  rdd (run_all overhead s).2.1 = rdd s.1 /\
  funcs (run_all overhead s).2.2 = funcs s.2.
Proof.
  intros Hcat. unfold run_all.
  apply (for_each_preserves (run overhead)
           (fun s' => rdd s'.1 = rdd s.1 /\ funcs s'.2 = funcs s.2)).
  - intros name s1 [Hr Hc].
    destruct (run_readonly overhead name s1) as [Hr1 Hc1]; [now rewrite Hc|].
    split; congruence.
  - now split.
Qed.

End BatchFacts.

Section BatchTheorems.
Context {Rdd Store Val : Type}.
Variable overhead : Q.

Local Abbreviation Closure := (Closure (Rdd := Rdd) (Store := Store) (Val := Val)).
Local Abbreviation State := (Benchmark (Rdd := Rdd)
                   * World (Rdd := Rdd) (Store := Store) (Val := Val))%type.
Local Abbreviation Notebook :=
  (Notebook (Rdd := Rdd) (Store := Store) (Val := Val)).

Implicit Types (s : State) (nb : Notebook).

Lemma length_keys (cat : gmap string Closure) : length (keys cat) = size cat.
Proof. unfold keys. now rewrite length_fmap, length_map_to_list. Qed.

Lemma run_all_quiet s :
  catalog_quiet (funcs s.2) ->
  exists ts s',
    run_all overhead s = (Return ts, s') /\
    funcs s'.2 = funcs s.2 /\ length ts = size (funcs s.2).
Proof.
  intros Hcat. unfold run_all.
  destruct (for_each_returns (run overhead)
              (fun s' => funcs s'.2 = funcs s.2) (fun _ _ => True)
              (keys (funcs s.2))) with (s := s)
    as (ts & s' & E & Hc & Hall); [|reflexivity|].
  - intros name s1 Hin Hs1.
    destruct (run_quiet_catalog overhead name s1) as (r & s2 & Er & Hc2).
    + now rewrite Hs1.
    + rewrite Hs1. now apply keys_bound.
    + exists r, s2. split; [exact Er|]. split; [congruence | exact I].
  - exists ts, s'. split; [exact E|]. split; [exact Hc|].
    rewrite <- length_keys. symmetry. exact (Forall2_length _ _ _ Hall).
Qed.

(** X1. Every operation of a catalog returning, a batch completes: it assigns
    its name one timing per name bound in the catalog, and leaves the
    catalog and the other batch's name as they were. *)
Theorem batch_completes_on_quiet_catalog nb :
  catalog_quiet (funcs (globals nb)) ->
  (exists ts nb',
     cell_distributed overhead nb = (None, nb') /\
     distributed nb' = Some ts /\ local nb' = local nb /\
     length ts = size (funcs (globals nb)) /\
     funcs (globals nb') = funcs (globals nb)) /\
  (exists ts nb',
     cell_local overhead nb = (None, nb') /\
     local nb' = Some ts /\ distributed nb' = distributed nb /\
     length ts = size (funcs (globals nb)) /\
     funcs (globals nb') = funcs (globals nb)).
Proof.
  intros Hcat. unfold cell_distributed, cell_local.
  destruct (run_all_quiet (t nb, globals nb) Hcat)
    as (ts & [b w] & -> & Hc & Hlen).
  split; eexists ts, _; (split; [reflexivity|]); now repeat split.
Qed.

(** X2. No entry of the catalog writing to the collection or the catalog,
    a batch leaves both as they were, whether it completes or raises. *)
Theorem batch_leaves_collection_and_catalog nb :
  catalog_readonly (funcs (globals nb)) ->
  (rdd (t (cell_distributed overhead nb).2) = rdd (t nb) /\
   funcs (globals (cell_distributed overhead nb).2) = funcs (globals nb)) /\
  (rdd (t (cell_local overhead nb).2) = rdd (t nb) /\
   funcs (globals (cell_local overhead nb).2) = funcs (globals nb)).
Proof.
  intros Hcat. unfold cell_distributed, cell_local.
  pose proof (run_all_readonly overhead (t nb, globals nb) Hcat) as Hro.
  destruct (run_all overhead (t nb, globals nb)) as [[ts|e] [b w]];
    simpl in *; now split.
Qed.

Lemma run_all_raises_readonly s e :
  catalog_readonly (funcs s.2) ->
  (run_all overhead s).1 = Raise e ->
  exists name f st,
    funcs s.2 !! name = Some f /\ outcome _ (call f (rdd s.1) st) = Raise e.
Proof.
  intros Hcat. unfold run_all.
  destruct (for_each (run overhead) (keys (funcs s.2)) s)
    as [[ts|e1] s'] eqn:E; simpl; [discriminate|].
  intros [= ->].
  destruct (for_each_raises _ _ _ _ _ E)
    as (pre & name & post & ys & s1 & Hk & Hpre & Hrun).
  assert (Hin : name ∈ keys (funcs s.2)).
  { rewrite Hk. apply elem_of_app. right. left. }
  apply keys_bound in Hin as [f Hf].
  assert (Hs1 : rdd s1.1 = rdd s.1 /\ funcs s1.2 = funcs s.2).
  { assert (Hbody : forall x s2,
              rdd s2.1 = rdd s.1 /\ funcs s2.2 = funcs s.2 ->
              rdd (run overhead x s2).2.1 = rdd s.1 /\
              funcs (run overhead x s2).2.2 = funcs s.2).
    { intros x s2 [Hr Hc].
      destruct (run_readonly overhead x s2) as [Hr1 Hc1]; [now rewrite Hc|].
      split; congruence. }
    pose proof (for_each_preserves (run overhead)
                  (fun s' => rdd s'.1 = rdd s.1 /\ funcs s'.2 = funcs s.2)
                  pre Hbody s (conj eq_refl eq_refl)) as Hinv.
    now rewrite Hpre in Hinv. }
  destruct Hs1 as [Hr1 Hc1].
  destruct (run_raises_readonly overhead name f s1 e) as [st Hst].
  - now rewrite Hc1.
  - now rewrite Hc1.
  - now rewrite Hrun.
  - exists name, f, st. split; [exact Hf | now rewrite <- Hr1].
Qed.

(** X3. No entry of the catalog writing to the collection or the catalog,
    the exception of a failing batch is one that an entry bound in the catalog
    raised when called on the stored collection: during a batch the lookup
    [funcs[name]] itself does not fail. *)
Theorem batch_failure_comes_from_an_entry nb e :
  catalog_readonly (funcs (globals nb)) ->
  (cell_distributed overhead nb).1 = Some e \/
  (cell_local overhead nb).1 = Some e ->
  exists name f st,
    funcs (globals nb) !! name = Some f /\
    outcome _ (call f (rdd (t nb)) st) = Raise e.
Proof.
  intros Hcat Hcell.
  apply (run_all_raises_readonly (t nb, globals nb) e Hcat).
  unfold cell_distributed, cell_local in Hcell.
  destruct (run_all overhead (t nb, globals nb)) as [[ts|e1] [b w]];
    simpl in *; destruct Hcell as [Hc|Hc]; try discriminate;
    now injection Hc as ->.
Qed.

End BatchTheorems.

Lemma one_entry_quiet : catalog_quiet (funcs Demo.one_entry).
Proof.
  intros name f Hf. unfold Demo.one_entry in Hf. cbn [funcs] in Hf.
  apply lookup_singleton_Some in Hf as [_ <-]. apply constant_cost_quiet.
Qed.

Lemma two_entries_readonly : catalog_readonly (funcs Demo.two_entries).
Proof.
  intros name f Hf. unfold Demo.two_entries in Hf. cbn [funcs] in Hf.
  apply lookup_insert_Some in Hf as [[_ <-]|[_ Hf]]; [now intros r st|].
  apply lookup_singleton_Some in Hf as [_ <-]. now intros r st.
Qed.

Lemma batch_completes_on_quiet_catalog_witness :
  exists ts,
    distributed
      (cell_distributed (1 # 100)
         (mkNotebook Demo.bench Demo.one_entry None None)).2 = Some ts /\
    length ts = 1%nat.
Proof.
  destruct (batch_completes_on_quiet_catalog (1 # 100)
              (mkNotebook Demo.bench Demo.one_entry None None)
              one_entry_quiet)
    as ((ts & nb' & Hcell & Hd & _ & Hlen & _) & _).
  exists ts. rewrite Hcell. split; [exact Hd | exact Hlen].
Defined.

Lemma batch_leaves_collection_and_catalog_witness :
  (cell_distributed (1 # 100) Demo.fresh_notebook).1 = Some Demo.boom /\
  rdd (t (cell_distributed (1 # 100) Demo.fresh_notebook).2) = tt /\
  funcs (globals (cell_distributed (1 # 100) Demo.fresh_notebook).2)
  = funcs Demo.two_entries.
Proof.
  split; [reflexivity|].
  exact (proj1 (batch_leaves_collection_and_catalog (1 # 100)
                  Demo.fresh_notebook two_entries_readonly)).
Defined.

Lemma batch_failure_comes_from_an_entry_witness :
  exists name f st,
    funcs Demo.two_entries !! name = Some f /\
    outcome _ (call f tt st) = Raise Demo.boom.
Proof.
  exact (batch_failure_comes_from_an_entry (1 # 100) Demo.fresh_notebook
           Demo.boom two_entries_readonly (or_introl eq_refl)).
Defined.

(** ** The tables built from the batches *)

Section TableFacts.
Context {Rdd Store Val : Type}.
Variable overhead : Q.

Local Abbreviation State := (Benchmark (Rdd := Rdd)
                   * World (Rdd := Rdd) (Store := Store) (Val := Val))%type.
Local Abbreviation Notebook :=
  (Notebook (Rdd := Rdd) (Store := Store) (Val := Val)).

Implicit Types (s : State) (nb : Notebook).



Lemma zip_constant {A} (c : string) (l : list A) :
  forall start,
  zip l (map (fun _ : nat => c) (seq start (length l)))
  = map (fun a => (a, c)) l.
Proof.
  induction l as [|a l IH]; intros start; simpl; [reflexivity|].
  now rewrite IH.
Qed.



Lemma frame_aligned nb (l d : list Q) :
  local nb = Some l ->
  distributed nb = Some d ->
  let ks := keys (funcs (globals nb)) in
  length l = length ks -> length d = length ks ->
  Report.cell_frame nb
  = Return (Report.rows_of "local" ks l
            ++ Report.rows_of "distributed" ks d)%list.
Proof.
  intros Hl Hd ks Hll Hdl.
  unfold Report.cell_frame, Report.cell_columns. rewrite Hl, Hd. simpl.
  fold ks. unfold Report.DataFrame_columns.
  cbn [Report.col1 Report.col2 Report.col3].
  rewrite !length_app, !length_map, !length_seq.
  rewrite decide_True by (split; lia).
  f_equal. unfold Report.rows_of.
  rewrite zip_with_app by exact Hll.
  rewrite zip_with_app by (rewrite length_zip_with, length_map, length_seq; lia).
  f_equal.
  - replace (length ks) with (length (zip l ks))
      by (rewrite length_zip_with; lia).
    apply zip_constant.
  - replace (length ks) with (length (zip d ks))
      by (rewrite length_zip_with; lia).
    apply zip_constant.
Qed.

(** X6. Cells 15 and 16, both batch names being bound: the frame is built
    exactly when the two batches together hold twice as many timings as
    the catalog binds names now; if each batch holds one timing per name,
    its rows are the local timings, then the distributed ones, each with
    the name at its position in [funcs.keys()] and its batch's label. *)
Theorem frame_rows nb (l d : list Q) :
  local nb = Some l ->
  distributed nb = Some d ->
  let ks := keys (funcs (globals nb)) in
  (returns (Report.cell_frame nb) <->
   (length l + length d = 2 * length ks)%nat) /\
  (length l = length ks -> length d = length ks ->
   Report.cell_frame nb
   = Return (Report.rows_of "local" ks l
             ++ Report.rows_of "distributed" ks d)%list).
Proof.
  intros Hl Hd ks. split; [|now apply frame_aligned].
  unfold Report.cell_frame, Report.cell_columns. rewrite Hl, Hd. simpl.
  fold ks. unfold Report.DataFrame_columns.
  cbn [Report.col1 Report.col2 Report.col3].
  rewrite !length_app, !length_map, !length_seq.
  destruct (decide _) as [[H1 _]|Hn]; simpl.
  - split; [intros _; lia | easy].
  - split; [easy|]. intros Hsum. apply Hn. split; lia.
Qed.

(** X7. The notebook from cell 9 to cell 16, over a catalog no entry of which
    writes to the collection or the catalog: when both batches complete,
    the frame of cell 16 is built, with two rows per name bound in the
    catalog, the local rows first. *)
Theorem frame_after_both_batches nb nb1 nb2 (r : Rdd) :
  catalog_readonly (funcs (globals nb)) ->
  cell_distributed overhead nb = (None, nb1) ->
  cell_local overhead (Report.cell_new_benchmark r nb1) = (None, nb2) ->
  let ks := keys (funcs (globals nb)) in
  exists l d,
    local nb2 = Some l /\ distributed nb2 = Some d /\
    Report.cell_frame nb2
    = Return (Report.rows_of "local" ks l
              ++ Report.rows_of "distributed" ks d)%list /\
    length (Report.rows_of "local" ks l
            ++ Report.rows_of "distributed" ks d)%list
    = (2 * size (funcs (globals nb)))%nat.
Proof.
  intros Hcat H1 H2 ks.
  pose proof (run_all_readonly overhead (t nb, globals nb) Hcat) as [_ Hc1].
  unfold cell_distributed in H1.
  destruct (run_all overhead (t nb, globals nb)) as [[d|e] [b1 w1]] eqn:E1;
    [|discriminate].
  injection H1 as <-. simpl in Hc1.
  assert (Hcat1 : catalog_readonly (funcs (Benchmark_init r, w1).2))
    by (simpl; now rewrite Hc1).
  pose proof (run_all_readonly overhead (Benchmark_init r, w1) Hcat1)
    as [_ Hc2].
  unfold cell_local, Report.cell_new_benchmark in H2. cbn [t globals] in H2.
  destruct (run_all overhead (Benchmark_init r, w1)) as [[l|e] [b2 w2]] eqn:E2;
    [|discriminate].
  injection H2 as <-. simpl in Hc2.
  unfold run_all in E1, E2. cbn [snd] in E1, E2.
  pose proof (for_each_length _ _ _ _ _ E1) as Hd.
  pose proof (for_each_length _ _ _ _ _ E2) as Hl.
  rewrite Hc1 in Hl. fold ks in Hd, Hl.
  exists l, d. split; [reflexivity|]. split; [reflexivity|].
  pose proof (frame_aligned (mkNotebook b2 w2 (Some d) (Some l)) l d
                eq_refl eq_refl) as Hrows.
  cbn [globals] in Hrows. rewrite Hc2, Hc1 in Hrows. fold ks in Hrows.
  split; [now apply Hrows|].
  unfold Report.rows_of.
  rewrite length_app, !length_map, !length_zip_with, <- length_keys.
  fold ks. lia.
Qed.

End TableFacts.

Lemma one_entry_readonly : catalog_readonly (funcs Demo.one_entry).
Proof.
  intros name f Hf. unfold Demo.one_entry in Hf. cbn [funcs] in Hf.
  apply lookup_singleton_Some in Hf as [_ <-]. now intros r st.
Qed.



Lemma frame_rows_witness :
  let nb := mkNotebook Demo.bench Demo.one_entry
              (Some [1010%Q]) (Some [510%Q]) in
  returns (Report.cell_frame nb) /\
  Report.cell_frame nb
  = Return [(510%Q, "sum", "local"); (1010%Q, "sum", "distributed")].
Proof.
  intros nb.
  destruct (frame_rows nb [510%Q] [1010%Q] eq_refl eq_refl) as [Hiff Hrows].
  split; [apply Hiff; reflexivity|].
  exact (Hrows eq_refl eq_refl).
Defined.

Lemma frame_after_both_batches_witness :
  let nb := mkNotebook Demo.bench Demo.one_entry None None in
  let nb1 := (cell_distributed (1 # 100) nb).2 in
  let nb2 := (cell_local (1 # 100) (Report.cell_new_benchmark tt nb1)).2 in
  exists rows, Report.cell_frame nb2 = Return rows /\ length rows = 2%nat.
Proof.
  intros nb nb1 nb2.
  assert (H1 : cell_distributed (1 # 100) nb = (None, nb1))
    by (vm_compute; reflexivity).
  assert (H2 : cell_local (1 # 100) (Report.cell_new_benchmark tt nb1)
               = (None, nb2))
    by (vm_compute; reflexivity).
  destruct (frame_after_both_batches (1 # 100) nb nb1 nb2 tt
              one_entry_readonly H1 H2)
    as (l & d & _ & _ & Hframe & Hlen).
  eexists. split; [exact Hframe | exact Hlen].
Defined.

(** ** More on a single run *)

(** X8. An entry that unbinds its own name is called once: the second timed
    evaluation looks the name up again, and [run] fails with the
    [KeyError] of that lookup, the name left unbound. *)
Theorem run_after_unbinding
    {Rdd Store Val : Type} (overhead : Q) (name : string) (c : Q) (v : Val)
    (self : Benchmark (Rdd := Rdd))
    (w : World (Rdd := Rdd) (Store := Store) (Val := Val)) :
  run overhead name (self, rebind name (unbinding name c v) w)
  = (Raise (KeyError name),
     (mkBenchmark (rdd self),
      mkWorld (delete name (funcs w)) (now w + overhead + c + overhead)%Q
              (store w))).
Proof.
  pose proof (run_follows_statement overhead name
                (self, rebind name (unbinding name c v) w)) as Hrun.
  cbn [repeat_stmt] in Hrun.
  unfold bind at 1, stmt at 1, rebind in Hrun. cbn [funcs now store] in Hrun.
  rewrite lookup_insert_eq in Hrun.
  cbn [call unbinding outcome rdd_after store_after elapsed rebinds
       apply_rebinds fold_left] in Hrun.
  rewrite delete_insert_eq in Hrun.
  unfold bind at 1, stmt at 1 in Hrun. cbn [funcs now store] in Hrun.
  rewrite lookup_delete_eq in Hrun. exact Hrun.
Qed.
